(** * Wavelength server: room state machine, scoring engine, prompt parser

    A shallow embedding of [src/server/index.js].

    Modelling conventions.
    - A JavaScript number is an exact rational ([Qc]) or one of the three
      non-finite values.  Integer-valued quantities of the server (scores,
      round counters, the target, [Math.round] results) are kept in [Z].
    - A JavaScript string used as text (prompt lines, clue) is its list of
      UTF-16 code units; socket ids and room codes are plain [string]s and
      serve as map keys.
    - A [Map] or object used as a dictionary is a [gmap], a [Set] a [gset].
    - [Math.random()] results are supplied to a handler from outside.
    - A handler that throws (reading [.id] of [undefined]) returns [None]. *)

From Stdlib Require Import ZArith QArith Qcanon Qround Qcabs Lia.
From stdpp Require Import gmap strings list fin_maps.

(** ** JavaScript primitives used by the server *)

Module JS.

Inductive num : Type :=
| Fin (q : Qc)
| NaN
| PosInf
| NegInf.

(** Payload values that reach a numeric coercion.  A string payload is
    represented by the number its numeric literal denotes. *)
Inductive val : Type :=
| Undefined
| Null
| Bool (b : bool)
| Num (x : num).

Definition ofZ (z : Z) : Qc := Q2Qc (inject_Z z).

(** [Number(v)] *)
Definition Number (v : val) : num :=
  match v with
  | Undefined => NaN
  | Null => Fin (ofZ 0)
  | Bool true => Fin (ofZ 1)
  | Bool false => Fin (ofZ 0)
  | Num x => x
  end.

Definition max (a b : Qc) : Qc := if decide (a ≤ b)%Qc then b else a.
Definition min (a b : Qc) : Qc := if decide (a ≤ b)%Qc then a else b.

Definition floor (q : Qc) : Z := Qfloor q.

(** [Math.round]: nearest integer, halves towards plus infinity. *)
Definition round (q : Qc) : Z := Qfloor (q + Q2Qc (1 # 2))%Qc.

Definition abs (q : Qc) : Qc := Qcabs q.

(** Text: a list of UTF-16 code units. *)
Abbreviation str := (list N).

Definition ofAscii (s : string) : str :=
  Ascii.N_of_ascii <$> String.list_ascii_of_string s.

(** WhiteSpace and LineTerminator code units, as removed by [trim]. *)
Definition isSpace (c : N) : bool :=
  ((c =? 9) || (c =? 10) || (c =? 11) || (c =? 12) || (c =? 13)
   || (c =? 32) || (c =? 160) || (c =? 5760)
   || ((8192 <=? c) && (c <=? 8202))
   || (c =? 8232) || (c =? 8233) || (c =? 8239) || (c =? 8287)
   || (c =? 12288) || (c =? 65279))%N.

Fixpoint trimStart (s : str) : str :=
  match s with
  | c :: s' => if isSpace c then trimStart s' else s
  | [] => []
  end.

Definition trimEnd (s : str) : str := reverse (trimStart (reverse s)).

Definition trim (s : str) : str := trimEnd (trimStart s).

(** [s.startsWith(sep)] *)
Fixpoint startsWith (sep s : str) : bool :=
  match sep, s with
  | [], _ => true
  | a :: sep', b :: s' => (a =? b)%N && startsWith sep' s'
  | _ :: _, [] => false
  end.

(** [s.includes(sep)] *)
Fixpoint includes (sep s : str) : bool :=
  startsWith sep s ||
  match s with
  | [] => false
  | _ :: s' => includes sep s'
  end.

(** [s.split(sep)] for a non-empty separator: the pieces between the
    successive occurrences of [sep], scanning left to right.  [skip] counts
    the code units of a matched separator still to be passed over and [cur]
    is the current piece, reversed. *)
Fixpoint split_go (sep : str) (skip : nat) (cur s : str) : list str :=
  match s with
  | [] => [reverse cur]
  | c :: s' =>
      match skip with
      | S k => split_go sep k cur s'
      | O =>
          if startsWith sep s
          then reverse cur :: split_go sep (length sep - 1) [] s'
          else split_go sep 0 (c :: cur) s'
      end
  end.

Definition split (sep s : str) : list str := split_go sep 0 [] s.

(** [s.split(/\r?\n/)] *)
Fixpoint splitLines_go (cur s : str) : list str :=
  match s with
  | [] => [reverse cur]
  | 13%N :: 10%N :: s' => reverse cur :: splitLines_go [] s'
  | 10%N :: s' => reverse cur :: splitLines_go [] s'
  | c :: s' => splitLines_go (c :: cur) s'
  end.

Definition splitLines (s : str) : list str := splitLines_go [] s.

(** [s.slice(0, n)] *)
Definition slice0 (n : nat) (s : str) : str := take n s.

End JS.

Abbreviation jsstr := (list N).

(** ** Pure helpers of the server *)

(** The first branch is the finite case; [Number.isFinite] fails on the
    three other values. *)
Definition clamp01_100 (n : JS.val) : Qc :=
  match JS.Number n with
  | JS.Fin v => JS.max (JS.ofZ 0) (JS.min (JS.ofZ 100) v)
  | _ => JS.ofZ 50
  end.

Definition clampInt (n : JS.val) (lo hi fallback : Z) : Z :=
  match JS.Number n with
  | JS.Fin v => Z.max lo (Z.min hi (JS.floor v))
  | _ => fallback
  end.

Definition scoreFromDistance (dist : Qc) : Z :=
  if decide (dist ≤ JS.ofZ 10)%Qc then 4
  else if decide (dist ≤ JS.ofZ 17)%Qc then 3
  else if decide (dist ≤ JS.ofZ 24)%Qc then 2
  else if decide (dist ≤ JS.ofZ 34)%Qc then 1
  else 0.

(** ** Prompt pool parser *)

Record Prompt : Type := { left : jsstr; right : jsstr }.

Definition sepBar : jsstr := [124%N].
Definition sepComma : jsstr := [44%N].
Definition sepArrow : jsstr := [45%N; 62%N].
Definition sepDash : jsstr := [8212%N].

(** [const [a, b] = line.split(sep); left = a?.trim(); right = b?.trim()] *)
Definition splitPair (sep line : jsstr) : option jsstr * option jsstr :=
  let parts := JS.split sep line in
  (JS.trim <$> parts !! 0%nat, JS.trim <$> parts !! 1%nat).

Definition truthyStr (s : jsstr) : bool :=
  match s with [] => false | _ => true end.

(** The body of the [for] loop over the lines: the pair a line contributes,
    if any. *)
Definition parseLine (line : jsstr) : option Prompt :=
  let '(l, r) :=
    if JS.includes sepBar line then splitPair sepBar line
    else if JS.includes sepComma line then splitPair sepComma line
    else if JS.includes sepArrow line then splitPair sepArrow line
    else if JS.includes sepDash line then splitPair sepDash line
    else (None, None) in
  match l, r with
  | Some a, Some b =>
      if truthyStr a && truthyStr b
         && bool_decide (length a ≤ 50)%nat && bool_decide (length b ≤ 50)%nat
      then Some {| left := a; right := b |}
      else None
  | _, _ => None
  end.

(** The trimmed, non-empty lines of the text. *)
Definition promptLines (text : jsstr) : list jsstr :=
  filter (λ l, truthyStr l = true) (JS.trim <$> JS.splitLines text).

Definition parsePromptLines (text : jsstr) : list Prompt :=
  take 250 (omap parseLine (promptLines text)).

(** ** Data model *)

Inductive Phase : Type := LOBBY | CLUE | GUESS | REVEAL | GAMEOVER.

#[global] Instance Phase_eq_dec : EqDecision Phase.
Proof. solve_decision. Defined.

Record Player : Type := { id : string; name : jsstr }.

(** One entry of [perPlayer]: [{guess, dist, pts}], [None] for [null]. *)
Module Result.
Record t : Type := { guess : option Qc; dist : option Qc; pts : Z }.
End Result.

(** The reveal snapshot stored in [room.lastReveal]. *)
Module Reveal.
Record t : Type := {
  target : option Z;
  finalGuess : Z;
  dist : Z;
  delta : Z;
  total : Z;
  perPlayer : gmap string Result.t;
  cluePts : Z
}.
End Reveal.

Record Room : Type := {
  code : string;
  hostId : option string;
  players : list Player;
  playerScores : gmap string Z;
  phase : Phase;
  cluegiverId : option string;
  spectrum : option Prompt;
  target : option Z;
  clue : jsstr;
  guesses : gmap string Qc;
  locked : gset string;
  finalGuess : option Z;
  lastReveal : option Reveal.t;
  score : Z;
  promptPool : list Prompt;
  totalRounds : Z;
  currentRound : Z
}.

(** Field assignments [room.f = v]. *)
Definition set_hostId (v : option string) (r : Room) : Room :=
  {| code := code r; hostId := v; players := players r;
     playerScores := playerScores r; phase := phase r;
     cluegiverId := cluegiverId r; spectrum := spectrum r; target := target r;
     clue := clue r; guesses := guesses r; locked := locked r;
     finalGuess := finalGuess r; lastReveal := lastReveal r; score := score r;
     promptPool := promptPool r; totalRounds := totalRounds r;
     currentRound := currentRound r |}.

Definition set_players (v : list Player) (r : Room) : Room :=
  {| code := code r; hostId := hostId r; players := v;
     playerScores := playerScores r; phase := phase r;
     cluegiverId := cluegiverId r; spectrum := spectrum r; target := target r;
     clue := clue r; guesses := guesses r; locked := locked r;
     finalGuess := finalGuess r; lastReveal := lastReveal r; score := score r;
     promptPool := promptPool r; totalRounds := totalRounds r;
     currentRound := currentRound r |}.

Definition set_playerScores (v : gmap string Z) (r : Room) : Room :=
  {| code := code r; hostId := hostId r; players := players r;
     playerScores := v; phase := phase r;
     cluegiverId := cluegiverId r; spectrum := spectrum r; target := target r;
     clue := clue r; guesses := guesses r; locked := locked r;
     finalGuess := finalGuess r; lastReveal := lastReveal r; score := score r;
     promptPool := promptPool r; totalRounds := totalRounds r;
     currentRound := currentRound r |}.

Definition set_phase (v : Phase) (r : Room) : Room :=
  {| code := code r; hostId := hostId r; players := players r;
     playerScores := playerScores r; phase := v;
     cluegiverId := cluegiverId r; spectrum := spectrum r; target := target r;
     clue := clue r; guesses := guesses r; locked := locked r;
     finalGuess := finalGuess r; lastReveal := lastReveal r; score := score r;
     promptPool := promptPool r; totalRounds := totalRounds r;
     currentRound := currentRound r |}.

Definition set_cluegiverId (v : option string) (r : Room) : Room :=
  {| code := code r; hostId := hostId r; players := players r;
     playerScores := playerScores r; phase := phase r;
     cluegiverId := v; spectrum := spectrum r; target := target r;
     clue := clue r; guesses := guesses r; locked := locked r;
     finalGuess := finalGuess r; lastReveal := lastReveal r; score := score r;
     promptPool := promptPool r; totalRounds := totalRounds r;
     currentRound := currentRound r |}.

Definition set_clue (v : jsstr) (r : Room) : Room :=
  {| code := code r; hostId := hostId r; players := players r;
     playerScores := playerScores r; phase := phase r;
     cluegiverId := cluegiverId r; spectrum := spectrum r; target := target r;
     clue := v; guesses := guesses r; locked := locked r;
     finalGuess := finalGuess r; lastReveal := lastReveal r; score := score r;
     promptPool := promptPool r; totalRounds := totalRounds r;
     currentRound := currentRound r |}.

Definition set_guesses (v : gmap string Qc) (r : Room) : Room :=
  {| code := code r; hostId := hostId r; players := players r;
     playerScores := playerScores r; phase := phase r;
     cluegiverId := cluegiverId r; spectrum := spectrum r; target := target r;
     clue := clue r; guesses := v; locked := locked r;
     finalGuess := finalGuess r; lastReveal := lastReveal r; score := score r;
     promptPool := promptPool r; totalRounds := totalRounds r;
     currentRound := currentRound r |}.

Definition set_locked (v : gset string) (r : Room) : Room :=
  {| code := code r; hostId := hostId r; players := players r;
     playerScores := playerScores r; phase := phase r;
     cluegiverId := cluegiverId r; spectrum := spectrum r; target := target r;
     clue := clue r; guesses := guesses r; locked := v;
     finalGuess := finalGuess r; lastReveal := lastReveal r; score := score r;
     promptPool := promptPool r; totalRounds := totalRounds r;
     currentRound := currentRound r |}.

Definition set_score (v : Z) (r : Room) : Room :=
  {| code := code r; hostId := hostId r; players := players r;
     playerScores := playerScores r; phase := phase r;
     cluegiverId := cluegiverId r; spectrum := spectrum r; target := target r;
     clue := clue r; guesses := guesses r; locked := locked r;
     finalGuess := finalGuess r; lastReveal := lastReveal r; score := v;
     promptPool := promptPool r; totalRounds := totalRounds r;
     currentRound := currentRound r |}.

Definition set_promptPool (v : list Prompt) (r : Room) : Room :=
  {| code := code r; hostId := hostId r; players := players r;
     playerScores := playerScores r; phase := phase r;
     cluegiverId := cluegiverId r; spectrum := spectrum r; target := target r;
     clue := clue r; guesses := guesses r; locked := locked r;
     finalGuess := finalGuess r; lastReveal := lastReveal r; score := score r;
     promptPool := v; totalRounds := totalRounds r;
     currentRound := currentRound r |}.

Definition set_totalRounds (v : Z) (r : Room) : Room :=
  {| code := code r; hostId := hostId r; players := players r;
     playerScores := playerScores r; phase := phase r;
     cluegiverId := cluegiverId r; spectrum := spectrum r; target := target r;
     clue := clue r; guesses := guesses r; locked := locked r;
     finalGuess := finalGuess r; lastReveal := lastReveal r; score := score r;
     promptPool := promptPool r; totalRounds := v;
     currentRound := currentRound r |}.

Definition set_currentRound (v : Z) (r : Room) : Room :=
  {| code := code r; hostId := hostId r; players := players r;
     playerScores := playerScores r; phase := phase r;
     cluegiverId := cluegiverId r; spectrum := spectrum r; target := target r;
     clue := clue r; guesses := guesses r; locked := locked r;
     finalGuess := finalGuess r; lastReveal := lastReveal r; score := score r;
     promptPool := promptPool r; totalRounds := totalRounds r;
     currentRound := v |}.

(** The payload of [room:state], as built by [safeRoomState].  [guesses] and
    [locked] are listed in key order rather than insertion order, and the
    [leaderboard] field (a locale-dependent sort) is left out.
    [secretTarget] is [None] when the payload has no such field. *)
Module State.
Record t : Type := {
  code : string;
  hostId : option string;
  players : list Player;
  playerScores : gmap string Z;
  phase : Phase;
  cluegiverId : option string;
  spectrum : option Prompt;
  clue : jsstr;
  guesses : list (string * Qc);
  locked : list string;
  score : Z;
  finalGuess : option Z;
  lastReveal : option Reveal.t;
  promptPoolCount : nat;
  totalRounds : Z;
  currentRound : Z;
  secretTarget : option (option Z)
}.
End State.

(** Outbound events, each paired with the socket id it is sent to. *)
Inductive Msg : Type :=
| RoomJoined (code : string)
| RoomError (message : string)
| RoomState (payload : State.t).

Abbreviation Emit := (string * Msg)%type.

(** The two [Math.random()] results a round start consumes. *)
Record Draws : Type := { rndSpectrum : Qc; rndTarget : Qc }.

(** Inbound events; the socket id of the sender is passed separately.
    [RoomCreate] carries the code produced by the id generator. *)
Inductive Event : Type :=
| RoomCreate (newCode : string) (name : jsstr)
| RoomJoin (code : string) (name : jsstr)
| PromptsSet (code : string) (text : jsstr)
| ConfigSetRounds (code : string) (totalRounds : JS.val)
| GameStart (code : string) (totalRounds : JS.val)
| RoundClue (code : string) (text : jsstr)
| RoundGuess (code : string) (value : JS.val)
| RoundLock (code : string)
| RoundRevealNow (code : string)
| RoundNext (code : string)
| GameReplay (code : string)
| Disconnect.

(** ** Room operations *)

Definition DEFAULT_PROMPTS : list Prompt :=
  [ {| left := JS.ofAscii "Cold"; right := JS.ofAscii "Hot" |};
    {| left := JS.ofAscii "Boring"; right := JS.ofAscii "Exciting" |};
    {| left := JS.ofAscii "Weak"; right := JS.ofAscii "Strong" |};
    {| left := JS.ofAscii "Gross"; right := JS.ofAscii "Tasty" |};
    {| left := JS.ofAscii "Chaotic"; right := JS.ofAscii "Orderly" |};
    {| left := JS.ofAscii "Overrated"; right := JS.ofAscii "Underrated" |} ].

(** [arr[i]] for an integer index: [None] is [undefined]. *)
Definition arrayGet {A : Type} (arr : list A) (i : Z) : option A :=
  if decide (0 ≤ i)%Z then arr !! Z.to_nat i else None.

(** [Math.floor(Math.random() * n)] for the draw [u]. *)
Definition randomBelow (u : Qc) (n : Z) : Z := JS.floor (u * JS.ofZ n)%Qc.

Definition pickSpectrum (room : Room) (u : Qc) : option Prompt :=
  let pool :=
    if bool_decide (0 < length (promptPool room))%nat
    then promptPool room else DEFAULT_PROMPTS in
  arrayGet pool (randomBelow u (Z.of_nat (length pool))).

(** [playerScores[id] ?? 0] *)
Definition scoreOf (scores : gmap string Z) (i : string) : Z :=
  default 0%Z (scores !! i).

Definition safeRoomState (room : Room) (forPlayerId : string) : State.t :=
  {| State.code := code room;
     State.hostId := hostId room;
     State.players := players room;
     State.playerScores := playerScores room;
     State.phase := phase room;
     State.cluegiverId := cluegiverId room;
     State.spectrum := spectrum room;
     State.clue := clue room;
     State.guesses := map_to_list (guesses room);
     State.locked := elements (locked room);
     State.score := score room;
     State.finalGuess := finalGuess room;
     State.lastReveal := lastReveal room;
     State.promptPoolCount := length (promptPool room);
     State.totalRounds := totalRounds room;
     State.currentRound := currentRound room;
     State.secretTarget :=
       if bool_decide (Some forPlayerId = cluegiverId room)
          && bool_decide (phase room = CLUE)
       then Some (target room) else None |}.

Definition broadcastRoom (room : Room) : list Emit :=
  (λ p, (id p, RoomState (safeRoomState room (id p)))) <$> players room.

(** [None] when [room.players[nextIdx]] is [undefined] and reading its [id]
    throws. *)
Definition rotateCluegiver (room : Room) : option Room :=
  let nextIdx :=
    match list_find (λ p, Some (id p) = cluegiverId room) (players room) with
    | Some (idx, _) => ((idx + 1) mod length (players room))%nat
    | None => 0%nat
    end in
  p ← players room !! nextIdx;
  Some (set_cluegiverId (Some (id p)) room).

Definition startRound (room : Room) (d : Draws) : option (Room * list Emit) :=
  r1 ← rotateCluegiver (set_phase CLUE room);
  let r2 :=
    {| code := code r1; hostId := hostId r1; players := players r1;
       playerScores := playerScores r1; phase := phase r1;
       cluegiverId := cluegiverId r1;
       spectrum := pickSpectrum r1 (rndSpectrum d);
       target := Some (randomBelow (rndTarget d) 101);
       clue := [];
       guesses := ∅;
       locked := ∅;
       finalGuess := None;
       lastReveal := None;
       score := score r1; promptPool := promptPool r1;
       totalRounds := totalRounds r1; currentRound := currentRound r1 |} in
  Some (r2, broadcastRoom r2).

(** The players other than the clue-giver. *)
Definition guessersOf (room : Room) : list Player :=
  filter (λ p, Some (id p) ≠ cluegiverId room) (players room).

Definition sumQc (l : list Qc) : Qc := foldl Qcplus (JS.ofZ 0) l.

Definition computeFinalGuess (room : Room) : Z :=
  let guessers := id <$> guessersOf room in
  let lockedGuessers := filter (λ i, i ∈ locked room) guessers in
  let values := omap (λ i, guesses room !! i) lockedGuessers in
  if bool_decide (length values = 0%nat) then 50%Z
  else JS.round (sumQc values / JS.ofZ (Z.of_nat (length values)))%Qc.

(** [null] is [0] in arithmetic. *)
Definition targetNum (room : Room) : Qc :=
  JS.ofZ (default 0%Z (target room)).

(** The variables the scoring loop of [revealRound] updates. *)
Record Tally : Type := {
  perPlayer : gmap string Result.t;
  scores : gmap string Z;
  sumPoints : Z;
  counted : Z
}.

(** One iteration of [for (const p of guessers)]. *)
Definition tallyStep (room : Room) (acc : Tally) (p : Player) : Tally :=
  match guesses room !! id p with
  | Some gv =>
      let d := JS.abs (gv - targetNum room)%Qc in
      let pts := scoreFromDistance d in
      {| perPlayer :=
           <[id p := {| Result.guess := Some gv; Result.dist := Some d;
                        Result.pts := pts |}]> (perPlayer acc);
         scores := <[id p := (scoreOf (scores acc) (id p) + pts)%Z]> (scores acc);
         sumPoints := (sumPoints acc + pts)%Z;
         counted := (counted acc + 1)%Z |}
  | None =>
      {| perPlayer :=
           <[id p := {| Result.guess := None; Result.dist := None;
                        Result.pts := 0 |}]> (perPlayer acc);
         scores := <[id p := (scoreOf (scores acc) (id p) + 0)%Z]> (scores acc);
         sumPoints := sumPoints acc;
         counted := counted acc |}
  end.

Definition tally (room : Room) : Tally :=
  foldl (tallyStep room)
    {| perPlayer := ∅; scores := playerScores room;
       sumPoints := 0; counted := 0 |}
    (guessersOf room).

(** [if (room.cluegiverId)]: neither [null] nor the empty string. *)
Definition truthyId (i : option string) : option string :=
  match i with
  | Some s => if bool_decide (s = "") then None else Some s
  | None => None
  end.

Definition cluePtsOf (t : Tally) : Z :=
  if bool_decide (0 < counted t)%Z
  then JS.round (JS.ofZ (sumPoints t) / JS.ofZ (counted t))%Qc
  else 0%Z.

(** The room as [revealRound] leaves it.  [room.playerScores] is always an
    object, so the guard that would create it is left out. *)
Definition revealState (room : Room) : Room :=
  let fg := computeFinalGuess room in
  let t := tally room in
  let cluePts := cluePtsOf t in
  let scores' :=
    match truthyId (cluegiverId room) with
    | Some cg => <[cg := (scoreOf (scores t) cg + cluePts)%Z]> (scores t)
    | None => scores t
    end in
  let score' := (score room + sumPoints t)%Z in
  let teamDist := Z.abs (fg - default 0%Z (target room)) in
  let teamDelta := scoreFromDistance (JS.ofZ teamDist) in
  {| code := code room; hostId := hostId room; players := players room;
     playerScores := scores';
     phase := REVEAL;
     cluegiverId := cluegiverId room;
     spectrum := spectrum room; target := target room; clue := clue room;
     guesses := guesses room; locked := locked room;
     finalGuess := Some fg;
     lastReveal :=
       Some {| Reveal.target := target room;
               Reveal.finalGuess := fg;
               Reveal.dist := teamDist;
               Reveal.delta := teamDelta;
               Reveal.total := score';
               Reveal.perPlayer := perPlayer t;
               Reveal.cluePts := cluePts |};
     score := score';
     promptPool := promptPool room; totalRounds := totalRounds room;
     currentRound := currentRound room |}.

Definition revealRound (room : Room) : Room * list Emit :=
  let r := revealState room in (r, broadcastRoom r).

Definition endGame (room : Room) : Room * list Emit :=
  let r :=
    {| code := code room; hostId := hostId room; players := players room;
       playerScores := playerScores room;
       phase := GAMEOVER;
       cluegiverId := cluegiverId room;
       spectrum := None;
       target := None;
       clue := [];
       guesses := ∅;
       locked := ∅;
       finalGuess := None;
       lastReveal := None;
       score := score room; promptPool := promptPool room;
       totalRounds := totalRounds room; currentRound := currentRound room |} in
  (r, broadcastRoom r).

(** ** Event handlers

    The registry [rooms] maps a code to its room.  Each handler is given as
    the function of the room it finds under the code: the room after the
    handler's mutations and the events emitted, in order.  A handler that
    returns early leaves the room as it is and emits nothing. *)

Abbreviation Rooms := (gmap string Room).

(** [name || "Player"] *)
Definition nameOr (name : jsstr) : jsstr :=
  if truthyStr name then name else JS.ofAscii "Player".

(** [room.totalRounds || 5] *)
Definition roundsOr5 (room : Room) : Z :=
  if bool_decide (totalRounds room = 0%Z) then 5%Z else totalRounds room.

(** [v != null] *)
Definition notNullish (v : JS.val) : bool :=
  match v with JS.Undefined | JS.Null => false | _ => true end.

(** The room object built by [room:create]. *)
Definition newRoom (sid newCode : string) (name : jsstr) : Room :=
  {| code := newCode;
     hostId := Some sid;
     players := [ {| id := sid; name := nameOr name |} ];
     playerScores := {[ sid := 0%Z ]};
     phase := LOBBY;
     cluegiverId := Some sid;
     spectrum := None;
     target := None;
     clue := [];
     guesses := ∅;
     locked := ∅;
     finalGuess := None;
     lastReveal := None;
     score := 0;
     promptPool := [];
     totalRounds := 5;
     currentRound := 0 |}.

Definition onRoomJoin (sid c : string) (name : jsstr) (room : Room)
  : Room * list Emit :=
  let room' :=
    match list_find (λ p, id p = sid) (players room) with
    | Some _ => room
    | None =>
        let r1 :=
          set_players (players room ++ [ {| id := sid; name := nameOr name |} ])
            room in
        set_playerScores
          (<[sid := scoreOf (playerScores r1) sid]> (playerScores r1)) r1
    end in
  (room', (sid, RoomJoined c) :: broadcastRoom room').

Definition onPromptsSet (sid : string) (text : jsstr) (room : Room)
  : Room * list Emit :=
  if negb (bool_decide (Some sid = hostId room)) then (room, [])
  else if negb (bool_decide (phase room = LOBBY)) then (room, [])
  else
    let room' := set_promptPool (parsePromptLines text) room in
    (room', broadcastRoom room').

Definition onConfigSetRounds (sid : string) (n : JS.val) (room : Room)
  : Room * list Emit :=
  if negb (bool_decide (Some sid = hostId room)) then (room, [])
  else if negb (bool_decide (phase room = LOBBY)) then (room, [])
  else
    let room' := set_totalRounds (clampInt n 1 50 (roundsOr5 room)) room in
    (room', broadcastRoom room').

(** [for (const p of room.players) room.playerScores[p.id] = 0] *)
Definition zeroScores (room : Room) : gmap string Z :=
  foldl (λ m p, <[id p := 0%Z]> m) (playerScores room) (players room).

(** The four statements shared by [game:start] and [game:replay]: team score
    and player scores to 0, round to 1, clue-giver to the last player.
    [None] when there is no last player. *)
Definition resetGame (room : Room) : option Room :=
  let r1 := set_playerScores (zeroScores room) (set_score 0 room) in
  let r2 := set_currentRound 1 r1 in
  p ← players r2 !! (length (players r2) - 1)%nat;
  Some (set_cluegiverId (Some (id p)) r2).

Definition onGameStart (sid : string) (n : JS.val) (d : Draws) (room : Room)
  : option (Room * list Emit) :=
  if negb (bool_decide (Some sid = hostId room)) then Some (room, [])
  else if bool_decide (length (players room) < 2)%nat
  then Some (room, [(sid, RoomError "Need at least 2 players.")])
  else
    let r1 :=
      if notNullish n
      then set_totalRounds (clampInt n 1 50 (roundsOr5 room)) room
      else room in
    r2 ← resetGame r1;
    startRound r2 d.

Definition onRoundClue (sid : string) (text : jsstr) (room : Room)
  : Room * list Emit :=
  if negb (bool_decide (phase room = CLUE)) then (room, [])
  else if negb (bool_decide (Some sid = cluegiverId room)) then (room, [])
  else
    let room' := set_phase GUESS (set_clue (JS.slice0 140 text) room) in
    (room', broadcastRoom room').

Definition onRoundGuess (sid : string) (value : JS.val) (room : Room)
  : Room * list Emit :=
  if negb (bool_decide (phase room = GUESS)) then (room, [])
  else if bool_decide (Some sid = cluegiverId room) then (room, [])
  else
    let room' :=
      set_guesses (<[sid := clamp01_100 value]> (guesses room)) room in
    (room', broadcastRoom room').

Definition onRoundLock (sid : string) (room : Room) : Room * list Emit :=
  if negb (bool_decide (phase room = GUESS)) then (room, [])
  else if bool_decide (Some sid = cluegiverId room) then (room, [])
  else
    let r1 := set_locked ({[ sid ]} ∪ locked room) room in
    let allLocked :=
      bool_decide (Forall (λ p, id p ∈ locked r1) (guessersOf r1)) in
    if allLocked then revealRound r1 else (r1, broadcastRoom r1).

Definition onRoundRevealNow (sid : string) (room : Room) : Room * list Emit :=
  if negb (bool_decide (Some sid = hostId room)) then (room, [])
  else if negb (bool_decide (phase room = GUESS)) then (room, [])
  else revealRound room.

Definition onRoundNext (sid : string) (d : Draws) (room : Room)
  : option (Room * list Emit) :=
  if negb (bool_decide (Some sid = hostId room)) then Some (room, [])
  else if negb (bool_decide (phase room = REVEAL)) then Some (room, [])
  else if bool_decide (totalRounds room ≤ currentRound room)%Z
  then Some (endGame room)
  else startRound (set_currentRound (currentRound room + 1) room) d.

Definition onGameReplay (sid : string) (d : Draws) (room : Room)
  : option (Room * list Emit) :=
  if negb (bool_decide (Some sid = hostId room)) then Some (room, [])
  else
    r1 ← resetGame room;
    startRound r1 d.

(** [room.players[0]?.id || null] *)
Definition firstId (ps : list Player) : option string :=
  truthyId (id <$> ps !! 0%nat).

(** The body of the [disconnect] loop for one room: the room after the
    mutations, and whether the socket was one of its players. *)
Definition leaveRoom (sid : string) (room : Room) : Room * bool :=
  let before := length (players room) in
  let r1 := set_players (filter (λ p, id p ≠ sid) (players room)) room in
  if bool_decide (length (players r1) ≠ before) then
    let r2 := set_playerScores (delete sid (playerScores r1)) r1 in
    let r3 :=
      if bool_decide (hostId r2 = Some sid)
      then set_hostId (firstId (players r2)) r2 else r2 in
    let r4 :=
      if bool_decide (cluegiverId r3 = Some sid)
      then set_cluegiverId (firstId (players r3)) r3 else r3 in
    (r4, true)
  else (r1, false).

(** What remains of a room in the registry after the loop body. *)
Definition afterLeave (sid : string) (room : Room) : option Room :=
  let '(r, was) := leaveRoom sid room in
  if was && bool_decide (length (players r) = 0%nat) then None else Some r.

Definition leaveEmits (sid : string) (room : Room) : list Emit :=
  let '(r, was) := leaveRoom sid room in
  if was && negb (bool_decide (length (players r) = 0%nat))
  then broadcastRoom r else [].

(** [const room = rooms.get(code); if (!room) return;] followed by a handler
    body that mutates the room in place. *)
Definition withRoom (c : string) (rooms : Rooms)
    (body : Room → option (Room * list Emit)) : option (Rooms * list Emit) :=
  match rooms !! c with
  | None => Some (rooms, [])
  | Some room =>
      '(room', out) ← body room;
      Some (<[c := room']> rooms, out)
  end.

(** The server's reaction to one inbound event of socket [sid].  On
    [Disconnect] the rooms are visited in key order here, in insertion order
    in the source; only the order of the emitted broadcasts depends on it. *)
Definition handle (sid : string) (ev : Event) (d : Draws) (rooms : Rooms)
  : option (Rooms * list Emit) :=
  match ev with
  | RoomCreate c name =>
      let room := newRoom sid c name in
      Some (<[c := room]> rooms, (sid, RoomJoined c) :: broadcastRoom room)
  | RoomJoin c name =>
      match rooms !! c with
      | None => Some (rooms, [(sid, RoomError "Room not found.")])
      | Some room =>
          let '(room', out) := onRoomJoin sid c name room in
          Some (<[c := room']> rooms, out)
      end
  | PromptsSet c text => withRoom c rooms (λ r, Some (onPromptsSet sid text r))
  | ConfigSetRounds c n =>
      withRoom c rooms (λ r, Some (onConfigSetRounds sid n r))
  | GameStart c n => withRoom c rooms (onGameStart sid n d)
  | RoundClue c text => withRoom c rooms (λ r, Some (onRoundClue sid text r))
  | RoundGuess c v => withRoom c rooms (λ r, Some (onRoundGuess sid v r))
  | RoundLock c => withRoom c rooms (λ r, Some (onRoundLock sid r))
  | RoundRevealNow c => withRoom c rooms (λ r, Some (onRoundRevealNow sid r))
  | RoundNext c => withRoom c rooms (onRoundNext sid d)
  | GameReplay c => withRoom c rooms (onGameReplay sid d)
  | Disconnect =>
      Some (omap (afterLeave sid) rooms,
            mjoin ((λ kv, leaveEmits sid kv.2) <$> map_to_list rooms))
  end.

(** The code an event names, and the handler body it runs on the room found
    there ([room:create] and [disconnect] look no room up). *)
Definition eventCode (ev : Event) : option string :=
  match ev with
  | RoomCreate _ _ | Disconnect => None
  | RoomJoin c _ | PromptsSet c _ | ConfigSetRounds c _ | GameStart c _
  | RoundClue c _ | RoundGuess c _ | RoundLock c | RoundRevealNow c
  | RoundNext c | GameReplay c => Some c
  end.

Definition roomBody (sid : string) (ev : Event) (d : Draws) (room : Room)
  : option (Room * list Emit) :=
  match ev with
  | RoomCreate _ _ | Disconnect => None
  | RoomJoin c name => Some (onRoomJoin sid c name room)
  | PromptsSet _ text => Some (onPromptsSet sid text room)
  | ConfigSetRounds _ n => Some (onConfigSetRounds sid n room)
  | GameStart _ n => onGameStart sid n d room
  | RoundClue _ text => Some (onRoundClue sid text room)
  | RoundGuess _ v => Some (onRoundGuess sid v room)
  | RoundLock _ => Some (onRoundLock sid room)
  | RoundRevealNow _ => Some (onRoundRevealNow sid room)
  | RoundNext _ => onRoundNext sid d room
  | GameReplay _ => onGameReplay sid d room
  end.

(** The registry and the emitted events after a step; the registry is left
    as it is when the handler throws. *)
Definition handle_rooms (sid : string) (ev : Event) (d : Draws) (rooms : Rooms)
  : Rooms :=
  default rooms (fst <$> handle sid ev d rooms).

Definition handle_out (sid : string) (ev : Event) (d : Draws) (rooms : Rooms)
  : list Emit :=
  default [] (snd <$> handle sid ev d rooms).

(** A sequence of inbound events, handled one after the other. *)
Fixpoint run (evs : list (string * Event * Draws)) (rooms : Rooms)
  : option Rooms :=
  match evs with
  | [] => Some rooms
  | (sid, ev, d) :: rest =>
      '(rooms', _) ← handle sid ev d rooms;
      run rest rooms'
  end.

(** The registries the server can be in: those reached from the empty one. *)
Inductive reachable : Rooms → Prop :=
| reachable_init : reachable ∅
| reachable_step sid ev d rooms rooms' out :
    reachable rooms →
    handle sid ev d rooms = Some (rooms', out) →
    reachable rooms'.

(** ** Specification-side notions *)






(** The stored guess as the specification words it: the value rounded to the
    nearest integer, then clamped to [0, 100]; 50 for a non-finite value. *)
Definition specStoredGuess (v : JS.val) : Qc :=
  match JS.Number v with
  | JS.Fin x => JS.ofZ (Z.max 0 (Z.min 100 (JS.round x)))
  | _ => JS.ofZ 50
  end.






(** Cutting a string at the first occurrence of [sep]: what is before it and
    what is after it; [None] when [sep] does not occur. *)
Fixpoint cutAt (sep s : jsstr) : option (jsstr * jsstr) :=
  if JS.startsWith sep s then Some ([], drop (length sep) s)
  else
    match s with
    | [] => None
    | c :: s' =>
        match cutAt sep s' with
        | Some (a, rest) => Some (c :: a, rest)
        | None => None
        end
    end.

(** The delimiters in priority order, and the first of them a line
    contains. *)
Definition delimiters : list jsstr := [sepBar; sepComma; sepArrow; sepDash].

Definition chosenSep (line : jsstr) : option jsstr :=
  List.find (λ sep, JS.includes sep line) delimiters.

(** A pair is kept when both sides are non-empty and of at most 50 code
    units. *)
Definition keepPair (a b : jsstr) : option Prompt :=
  if truthyStr a && truthyStr b
     && bool_decide (length a ≤ 50)%nat && bool_decide (length b ≤ 50)%nat
  then Some {| left := a; right := b |}
  else None.

(** The pair of a line as the specification words it: the line is split at
    the first occurrence of the chosen delimiter, and the two sides are
    trimmed. *)
Definition specParseLine (line : jsstr) : option Prompt :=
  sep ← chosenSep line;
  '(a, rest) ← cutAt sep line;
  keepPair (JS.trim a) (JS.trim rest).

Definition specParsePromptLines (text : jsstr) : list Prompt :=
  take 250 (omap specParseLine (promptLines text)).

(** The right side as the parser takes it: what lies between the first and
    the second occurrence of the delimiter, or after the first when there is
    no second. *)
Definition untilNext (sep rest : jsstr) : jsstr :=
  match cutAt sep rest with
  | Some (b, _) => b
  | None => rest
  end.

Definition amendedParseLine (line : jsstr) : option Prompt :=
  sep ← chosenSep line;
  '(a, rest) ← cutAt sep line;
  keepPair (JS.trim a) (JS.trim (untilNext sep rest)).



(** What a room holds of the target and of the last reveal, phase by
    phase. *)
Definition snapshotInv (room : Room) : Prop :=
  match phase room with
  | LOBBY | GAMEOVER => lastReveal room = None ∧ target room = None
  | CLUE | GUESS => lastReveal room = None ∧ is_Some (target room)
  | REVEAL =>
      ∃ rv t, lastReveal room = Some rv ∧ Reveal.target rv = Some t
              ∧ target room = Some t
  end.

(** The guard of an event is violated in a room: wrong actor or wrong
    phase.  For [game:start] and [game:replay] this is the guard the handler
    checks, the host; the phase of the transition table is not part of
    it. *)
Definition guardViolated (sid : string) (ev : Event) (room : Room) : Prop :=
  match ev with
  | PromptsSet _ _ | ConfigSetRounds _ _ =>
      Some sid ≠ hostId room ∨ phase room ≠ LOBBY
  | GameStart _ _ | GameReplay _ => Some sid ≠ hostId room
  | RoundClue _ _ => Some sid ≠ cluegiverId room ∨ phase room ≠ CLUE
  | RoundGuess _ _ | RoundLock _ =>
      Some sid = cluegiverId room ∨ phase room ≠ GUESS
  | RoundRevealNow _ => Some sid ≠ hostId room ∨ phase room ≠ GUESS
  | RoundNext _ => Some sid ≠ hostId room ∨ phase room ≠ REVEAL
  | RoomCreate _ _ | RoomJoin _ _ | Disconnect => False
  end.

(** A game of three: Ann ([a]) creates room [R], Bob ([b]) and Cy ([c])
    join, Ann starts the game and, as first clue-giver, gives the clue.  The
    draws make the target 50. *)
Module Demo.
Definition q (a : Z) (b : positive) : Qc := Q2Qc (a # b).
Definition draws : Draws := {| rndSpectrum := q 0 1; rndTarget := q 50 101 |}.
Definition by_ (s : string) (e : Event) : string * Event * Draws :=
  (s, e, draws).
Definition number (a : Z) (b : positive) : JS.val := JS.Num (JS.Fin (q a b)).

Definition lobby : list (string * Event * Draws) :=
  [ by_ "a" (RoomCreate "R" (JS.ofAscii "Ann"));
    by_ "b" (RoomJoin "R" (JS.ofAscii "Bob"));
    by_ "c" (RoomJoin "R" (JS.ofAscii "Cy")) ].

Definition guessing : list (string * Event * Draws) :=
  lobby ++ [ by_ "a" (GameStart "R" JS.Undefined);
             by_ "a" (RoundClue "R" (JS.ofAscii "warm")) ].

(** Bob points at 45 and locks, Cy points at 60. *)
Definition oneLocked : list (string * Event * Draws) :=
  guessing ++ [ by_ "b" (RoundGuess "R" (number 45 1));
                by_ "c" (RoundGuess "R" (number 60 1));
                by_ "b" (RoundLock "R") ].

(** Cy locks too and the round is revealed. *)
Definition revealed : list (string * Event * Draws) :=
  oneLocked ++ [ by_ "c" (RoundLock "R") ].

Definition after (evs : list (string * Event * Draws)) : Rooms :=
  default ∅ (run evs ∅).

(** A one-round game of the same three, played to the reveal. *)
Definition single : list (string * Event * Draws) :=
  lobby ++ [ by_ "a" (GameStart "R" (number 1 1));
             by_ "a" (RoundClue "R" (JS.ofAscii "warm"));
             by_ "b" (RoundGuess "R" (number 45 1));
             by_ "b" (RoundLock "R");
             by_ "c" (RoundLock "R") ].

(** Room [R] after the events. *)
Definition room (evs : list (string * Event * Draws)) : Room :=
  default (newRoom "" "" []) (after evs !! "R").
End Demo.

(** Case analysis on the guards of a handler body whose result is [H]:
    [guards] for a body that always returns a pair, [guards_then] for one
    that may go on to start a round, the branches that return at once being
    closed by [tac]. *)
Ltac guards H := repeat case_bool_decide; simpl in H; injection H as <- <-.

Ltac guards_then H tac :=
  repeat case_bool_decide; simpl in H; try (injection H as <- <-; tac).

(** Closing a goal on concrete data by evaluation. *)
Ltac by_evaluation := vm_compute; first [reflexivity | discriminate].

(** ** The scoring loop *)

Section Tally.
Variable room : Room.

















End Tally.

(** ** Steps of the registry, room by room *)

Lemma withRoom_inv c rooms body rooms' out :
  withRoom c rooms body = Some (rooms', out) →
  (rooms !! c = None ∧ rooms' = rooms ∧ out = [])
  ∨ (∃ r r', rooms !! c = Some r ∧ body r = Some (r', out)
             ∧ rooms' = <[c := r']> rooms).
Proof.
  unfold withRoom. destruct (rooms !! c) as [r|] eqn:E.
  - destruct (body r) as [[r' o]|] eqn:B; simpl; [|discriminate].
    intros [= <- <-]. right. eauto.
  - intros [= <- <-]. left. auto.
Qed.

Lemma handle_lookup sid ev d rooms rooms' out c r' :
  handle sid ev d rooms = Some (rooms', out) →
  rooms' !! c = Some r' →
  rooms !! c = Some r'
  ∨ (∃ nm, ev = RoomCreate c nm ∧ r' = newRoom sid c nm)
  ∨ (ev = Disconnect ∧ ∃ r, rooms !! c = Some r ∧ afterLeave sid r = Some r')
  ∨ (∃ r, eventCode ev = Some c ∧ rooms !! c = Some r
          ∧ roomBody sid ev d r = Some (r', out)).
Proof.
  intros H Hr'.
  assert (Hw : ∀ c0 body,
    withRoom c0 rooms body = Some (rooms', out) →
    rooms !! c = Some r'
    ∨ (c0 = c ∧ ∃ r, rooms !! c = Some r ∧ body r = Some (r', out))).
  { intros c0 body Hb. apply withRoom_inv in Hb as [(_ & -> & _)|Hb]; [auto|].
    destruct Hb as (r & r1 & Hr & Hb & ->).
    destruct (decide (c0 = c)) as [->|Hne].
    - rewrite lookup_insert_eq in Hr'. injection Hr' as ->. eauto.
    - rewrite lookup_insert_ne in Hr' by done. auto. }
  destruct ev; unfold handle in H.
  - injection H as <- <-. destruct (decide (newCode = c)) as [->|Hne].
    + rewrite lookup_insert_eq in Hr'. injection Hr' as <-. eauto.
    + rewrite lookup_insert_ne in Hr' by done. auto.
  - destruct (rooms !! code0) as [r|] eqn:E.
    + destruct (onRoomJoin sid code0 name0 r) as [r1 o] eqn:J.
      injection H as <- <-. destruct (decide (code0 = c)) as [->|Hne].
      * rewrite lookup_insert_eq in Hr'. injection Hr' as ->.
        right. right. right. exists r. simpl. rewrite J. auto.
      * rewrite lookup_insert_ne in Hr' by done. auto.
    + injection H as <- <-. auto.
  - apply Hw in H as [?|(-> & r & ? & ?)]; [auto|]. do 3 right. eauto.
  - apply Hw in H as [?|(-> & r & ? & ?)]; [auto|]. do 3 right. eauto.
  - apply Hw in H as [?|(-> & r & ? & ?)]; [auto|]. do 3 right. eauto.
  - apply Hw in H as [?|(-> & r & ? & ?)]; [auto|]. do 3 right. eauto.
  - apply Hw in H as [?|(-> & r & ? & ?)]; [auto|]. do 3 right. eauto.
  - apply Hw in H as [?|(-> & r & ? & ?)]; [auto|]. do 3 right. eauto.
  - apply Hw in H as [?|(-> & r & ? & ?)]; [auto|]. do 3 right. eauto.
  - apply Hw in H as [?|(-> & r & ? & ?)]; [auto|]. do 3 right. eauto.
  - apply Hw in H as [?|(-> & r & ? & ?)]; [auto|]. do 3 right. eauto.
  - injection H as <- <-. rewrite lookup_omap in Hr'.
    destruct (rooms !! c) as [r|] eqn:E; simpl in Hr'; [|discriminate].
    right. right. left. eauto.
Qed.

(** Every room of a reachable registry satisfies a property that holds of a
    new room and is kept by a departure and by every handler body. *)
Lemma reachable_room_ind (P : Room → Prop) :
  (∀ sid c nm, P (newRoom sid c nm)) →
  (∀ sid r r', P r → afterLeave sid r = Some r' → P r') →
  (∀ sid ev d r r' out, P r → roomBody sid ev d r = Some (r', out) → P r') →
  ∀ rooms, reachable rooms → ∀ c r, rooms !! c = Some r → P r.
Proof.
  intros Hnew Hleave Hbody rooms Hreach.
  induction Hreach as [|sid ev d rooms rooms' out _ IH Hstep]; intros c r Hr.
  - by rewrite lookup_empty in Hr.
  - destruct (handle_lookup _ _ _ _ _ _ _ _ Hstep Hr)
      as [H|[(nm & -> & ->)|[(-> & r0 & H0 & HL)|(r0 & _ & H0 & HB)]]]; eauto.
Qed.

(** ** Where a reveal can come from *)

Lemma rotateCluegiver_fields room r :
  rotateCluegiver room = Some r →
  players r = players room ∧ phase r = phase room
  ∧ playerScores r = playerScores room ∧ score r = score room
  ∧ hostId r = hostId room
  ∧ ∃ p, p ∈ players room ∧ cluegiverId r = Some (id p).
Proof.
  unfold rotateCluegiver. intros H.
  apply bind_Some in H as (p & Hp & [= <-]). simpl.
  repeat split; try reflexivity. exists p. split; [|done].
  by apply list_elem_of_lookup_2 in Hp.
Qed.

Lemma startRound_fields room d r out :
  startRound room d = Some (r, out) →
  phase r = CLUE ∧ players r = players room ∧ locked r = ∅ ∧ guesses r = ∅
  ∧ lastReveal r = None ∧ is_Some (target r)
  ∧ playerScores r = playerScores room ∧ score r = score room
  ∧ hostId r = hostId room
  ∧ out = broadcastRoom r.
Proof.
  unfold startRound. intros H.
  apply bind_Some in H as (r1 & H1 & [= <- <-]).
  apply rotateCluegiver_fields in H1 as (Hp & Hph & Hs & Hsc & Hh & _).
  simpl in *. repeat split; eauto.
Qed.




Lemma afterLeave_fields sid r r' :
  afterLeave sid r = Some r' →
  phase r' = phase r ∧ lastReveal r' = lastReveal r
  ∧ finalGuess r' = finalGuess r ∧ score r' = score r
  ∧ target r' = target r
  ∧ locked r' = locked r ∧ guesses r' = guesses r
  ∧ players r' = filter (λ p, id p ≠ sid) (players r).
Proof.
  unfold afterLeave, leaveRoom.
  repeat case_bool_decide; simpl; intros [= <-]; repeat split; reflexivity.
Qed.



(** ** Scoring at a reveal *)











Lemma after_reachable evs : reachable (Demo.after evs).
Proof.
  unfold Demo.after.
  assert (H : ∀ rooms, reachable rooms →
                reachable (default ∅ (run evs rooms))).
  { induction evs as [|[[sid ev] d] evs IH]; intros rooms Hr; [done|].
    simpl. destruct (handle sid ev d rooms) as [[rooms' out]|] eqn:E.
    - simpl. apply IH. by eapply reachable_step.
    - apply reachable_init. }
  apply H, reachable_init.
Qed.










(** ** Stored guesses *)

Lemma ofZ_le a b : (JS.ofZ a ≤ JS.ofZ b)%Qc ↔ (a ≤ b)%Z.
Proof.
  unfold JS.ofZ, Qcle. simpl. rewrite !Qred_correct, <- Zle_Qle. reflexivity.
Qed.

Lemma round_ofZ z : JS.round (JS.ofZ z) = z.
Proof.
  unfold JS.round, JS.ofZ.
  assert (E : (this (Q2Qc (inject_Z z) + Q2Qc (1 # 2))%Qc ==
               inject_Z z + (1 # 2))%Q).
  { simpl. rewrite !Qred_correct. reflexivity. }
  rewrite (Qfloor_comp _ _ E).
  unfold Qfloor, Qplus, inject_Z. simpl.
  symmetry. apply (Z.div_unique _ _ _ 1); lia.
Qed.

Lemma clamp_range x :
  let g := JS.max (JS.ofZ 0) (JS.min (JS.ofZ 100) x) in
  (JS.ofZ 0 ≤ g)%Qc ∧ (g ≤ JS.ofZ 100)%Qc
  ∧ ((JS.ofZ 0 ≤ x)%Qc → (x ≤ JS.ofZ 100)%Qc → g = x)
  ∧ ((x < JS.ofZ 0)%Qc → g = JS.ofZ 0)
  ∧ ((JS.ofZ 100 < x)%Qc → g = JS.ofZ 100).
Proof.
  assert (H0100 : (JS.ofZ 0 ≤ JS.ofZ 100)%Qc) by (apply ofZ_le; lia).
  cbv zeta. unfold JS.max, JS.min.
  destruct (decide (JS.ofZ 100 ≤ x)%Qc) as [Hhi|Hhi].
  - rewrite decide_True by done.
    split; [done|]. split; [apply Qcle_refl|].
    split; [intros _ Hx; by apply Qcle_antisym|].
    split; [|done].
    intros Hx. exfalso. apply (Qclt_not_le _ _ Hx).
    by apply Qcle_trans with (JS.ofZ 100).
  - apply Qcnot_le_lt in Hhi.
    assert (Hhi' : ¬ (JS.ofZ 100 < x)%Qc).
    { intros Hx. apply (Qclt_not_le _ _ Hx). by apply Qclt_le_weak. }
    destruct (decide (JS.ofZ 0 ≤ x)%Qc) as [Hlo|Hlo].
    + split; [done|]. split; [by apply Qclt_le_weak|].
      split; [done|]. split; [|done].
      intros Hx. exfalso. by apply (Qclt_not_le _ _ Hx).
    + split; [apply Qcle_refl|]. split; [done|].
      split; [intros Hx; by destruct Hlo|]. split; done.
Qed.

(** On an integer the clamp of the server and the rounding clamp agree. *)
Lemma clamp_integer z :
  JS.max (JS.ofZ 0) (JS.min (JS.ofZ 100) (JS.ofZ z)) =
  JS.ofZ (Z.max 0 (Z.min 100 z)).
Proof.
  unfold JS.max, JS.min.
  destruct (decide (JS.ofZ 100 ≤ JS.ofZ z)%Qc) as [H|H].
  - rewrite decide_True by (apply ofZ_le; lia).
    pose proof (proj1 (ofZ_le 100 z) H).
    replace (Z.max 0 (Z.min 100 z)) with 100%Z by lia. reflexivity.
  - assert (¬ (100 ≤ z)%Z) by (intros Hz; by apply H, ofZ_le).
    destruct (decide (JS.ofZ 0 ≤ JS.ofZ z)%Qc) as [H'|H'].
    + pose proof (proj1 (ofZ_le 0 z) H').
      replace (Z.max 0 (Z.min 100 z)) with z by lia. reflexivity.
    + assert (¬ (0 ≤ z)%Z) by (intros Hz; by apply H', ofZ_le).
      replace (Z.max 0 (Z.min 100 z)) with 0%Z by lia. reflexivity.
Qed.

(** C1, as amended.  A guess of value [v] received during [GUESS] from a
    socket other than the clue-giver is stored clamped to [0, 100] and not
    rounded: a finite [v] within the range is stored as it is, one below is
    stored as 0, one above as 100; a non-finite [v] is stored as 50.  When
    [v] is an integer this is the rounded and clamped value. *)
Theorem guess_stored_clamped sid c v d rooms r :
  rooms !! c = Some r →
  phase r = GUESS →
  Some sid ≠ cluegiverId r →
  ∃ rooms' out r' g,
    handle sid (RoundGuess c v) d rooms = Some (rooms', out)
    ∧ rooms' !! c = Some r'
    ∧ guesses r' !! sid = Some g
    ∧ match JS.Number v with
      | JS.Fin x =>
          (JS.ofZ 0 ≤ g)%Qc ∧ (g ≤ JS.ofZ 100)%Qc
          ∧ ((JS.ofZ 0 ≤ x)%Qc → (x ≤ JS.ofZ 100)%Qc → g = x)
          ∧ ((x < JS.ofZ 0)%Qc → g = JS.ofZ 0)
          ∧ ((JS.ofZ 100 < x)%Qc → g = JS.ofZ 100)
          ∧ (∀ z, x = JS.ofZ z → g = specStoredGuess v)
      | _ => g = JS.ofZ 50
      end.
Proof.
  intros Hr Hg Hcg.
  set (r' := set_guesses (<[sid := clamp01_100 v]> (guesses r)) r).
  exists (<[c := r']> rooms), (broadcastRoom r'), r', (clamp01_100 v).
  split.
  { unfold handle, withRoom. rewrite Hr. simpl. unfold onRoundGuess.
    rewrite bool_decide_true by done. rewrite bool_decide_false by done.
    reflexivity. }
  split; [apply lookup_insert_eq|]. split; [apply lookup_insert_eq|].
  unfold clamp01_100, specStoredGuess. destruct (JS.Number v) as [x| | |]; auto.
  destruct (clamp_range x) as (H1 & H2 & H3 & H4 & H5).
  repeat (split; [assumption|]).
  intros z ->. rewrite round_ofZ. apply clamp_integer.
Qed.

Lemma guess_stored_clamped_witness :
  ∃ rooms' out r',
    handle "b" (RoundGuess "R" (Demo.number 45 1)) Demo.draws
      (Demo.after Demo.guessing) = Some (rooms', out)
    ∧ rooms' !! "R" = Some r'
    ∧ guesses r' !! "b" = Some (Demo.q 45 1).
Proof.
  assert (H1 : Demo.after Demo.guessing !! "R" = Some (Demo.room Demo.guessing))
    by by_evaluation.
  assert (H2 : phase (Demo.room Demo.guessing) = GUESS) by by_evaluation.
  assert (H3 : Some "b" ≠ cluegiverId (Demo.room Demo.guessing))
    by by_evaluation.
  destruct (guess_stored_clamped "b" "R" (Demo.number 45 1) Demo.draws _ _
              H1 H2 H3)
    as (rooms' & out & r' & g & Ha & Hb & Hc & Hd).
  exists rooms', out, r'. split; [exact Ha|]. split; [exact Hb|].
  rewrite Hc. f_equal. simpl in Hd. destruct Hd as (_ & _ & Hd & _).
  apply Hd; by_evaluation.
Defined.

(** C1 as stated fails: the value 45.5 sent by Bob during [GUESS] is stored
    as 45.5, while rounding and clamping it gives 46. *)
Lemma guess_not_rounded :
  ∃ rooms' out r',
    phase (Demo.room Demo.guessing) = GUESS
    ∧ cluegiverId (Demo.room Demo.guessing) ≠ Some "b"
    ∧ handle "b" (RoundGuess "R" (Demo.number 91 2)) Demo.draws
        (Demo.after Demo.guessing) = Some (rooms', out)
    ∧ rooms' !! "R" = Some r'
    ∧ guesses r' !! "b" = Some (Demo.q 91 2)
    ∧ specStoredGuess (Demo.number 91 2) = Demo.q 46 1
    ∧ guesses r' !! "b" ≠ Some (specStoredGuess (Demo.number 91 2)).
Proof.
  eexists _, _, _.
  split; [by_evaluation|]. split; [by_evaluation|].
  split; [by_evaluation|]. split; [by_evaluation|].
  split; [by_evaluation|]. split; [by_evaluation|]. by_evaluation.
Qed.

(** ** Departures *)




(** ** Guards *)

(** An event whose guard, as the handler checks it, is violated leaves the
    room as it is and emits nothing. *)
Lemma guard_violation_silent sid ev d r :
  guardViolated sid ev r → roomBody sid ev d r = Some (r, []).
Proof.
  destruct ev; simpl; try done;
    unfold onPromptsSet, onConfigSetRounds, onGameStart, onRoundClue,
      onRoundGuess, onRoundLock, onRoundRevealNow, onRoundNext, onGameReplay;
    intros H; repeat case_bool_decide; simpl; try done; tauto.
Qed.

(** So the registry is as before and nothing is sent. *)
Lemma guard_violation_ignored sid ev d rooms c r :
  eventCode ev = Some c → rooms !! c = Some r → guardViolated sid ev r →
  handle sid ev d rooms = Some (rooms, []).
Proof.
  intros Hc Hr Hv. pose proof (guard_violation_silent sid ev d r Hv) as Hb.
  destruct ev; simpl in Hc, Hv; try done; injection Hc as ->;
    unfold handle, withRoom; rewrite Hr; simpl in Hb;
    first [rewrite Hb | injection Hb as ->]; simpl; by rewrite insert_id.
Qed.

(** The two rejections: starting with fewer than two players, joining an
    unknown room.  Both emit [room:error] to the requester and change
    nothing. *)
Lemma start_needs_two_players sid c n d rooms r :
  rooms !! c = Some r → hostId r = Some sid → (length (players r) < 2)%nat →
  handle sid (GameStart c n) d rooms
  = Some (rooms, [(sid, RoomError "Need at least 2 players.")]).
Proof.
  intros Hr Hh Hl. unfold handle, withRoom. rewrite Hr. simpl.
  unfold onGameStart. rewrite bool_decide_true by done.
  rewrite bool_decide_true by done. simpl. by rewrite insert_id.
Qed.

Lemma join_unknown_room sid c nm d rooms :
  rooms !! c = None →
  handle sid (RoomJoin c nm) d rooms
  = Some (rooms, [(sid, RoomError "Room not found.")]).
Proof. intros Hr. unfold handle. by rewrite Hr. Qed.

(** C2 at its failing inputs.  During [GUESS], with Bob's guess on record
    and Bob locked, the host's [game:start] is not ignored: the room goes
    to [CLUE] with the guesses and the locked set cleared, and the new state
    is broadcast.  The same holds of the host's [game:replay]. *)
Theorem start_and_replay_ignore_phase :
  phase (Demo.room Demo.oneLocked) = GUESS
  ∧ hostId (Demo.room Demo.oneLocked) = Some "a"
  ∧ guesses (Demo.room Demo.oneLocked) !! "b" = Some (Demo.q 45 1)
  ∧ (∃ rooms' out r',
       handle "a" (GameStart "R" JS.Undefined) Demo.draws
         (Demo.after Demo.oneLocked) = Some (rooms', out)
       ∧ rooms' !! "R" = Some r'
       ∧ phase r' = CLUE ∧ guesses r' !! "b" = None
       ∧ length out = 3%nat)
  ∧ (∃ rooms' out r',
       handle "a" (GameReplay "R") Demo.draws
         (Demo.after Demo.oneLocked) = Some (rooms', out)
       ∧ rooms' !! "R" = Some r'
       ∧ phase r' = CLUE ∧ guesses r' !! "b" = None
       ∧ length out = 3%nat).
Proof.
  split; [by_evaluation|]. split; [by_evaluation|]. split; [by_evaluation|].
  split; eexists _, _, _;
    (split; [by_evaluation|]); (split; [by_evaluation|]);
    (split; [by_evaluation|]); split; by_evaluation.
Qed.

(** ** The locked set *)









(** ** What a broadcast shows of the target *)

Lemma broadcastRoom_elem r pid pl :
  (pid, RoomState pl) ∈ broadcastRoom r →
  pl = safeRoomState r pid ∧ pid ∈ id <$> players r.
Proof.
  unfold broadcastRoom. intros H.
  apply list_elem_of_fmap in H as (p & [= -> ->] & Hp).
  split; [done|]. apply list_elem_of_fmap. eauto.
Qed.

Lemma startRound_out room d r out pid pl :
  startRound room d = Some (r, out) → (pid, RoomState pl) ∈ out →
  pl = safeRoomState r pid ∧ pid ∈ id <$> players r.
Proof.
  intros H Hin. apply startRound_fields in H.
  destruct H as (_ & _ & _ & _ & _ & _ & _ & _ & _ & ->).
  by apply broadcastRoom_elem.
Qed.

(** Every [room:state] a handler body emits is [safeRoomState] of the room
    as the body leaves it, for a player of that room. *)
Lemma roomBody_out sid ev d r r' out pid pl :
  roomBody sid ev d r = Some (r', out) → (pid, RoomState pl) ∈ out →
  pl = safeRoomState r' pid ∧ pid ∈ id <$> players r'.
Proof.
  intros H Hin. destruct ev; simpl in H; try discriminate.
  - injection H as <- <-.
    apply elem_of_cons in Hin as [[=]|Hin]. by apply broadcastRoom_elem.
  - injection H as H. unfold onPromptsSet in H.
    guards H;
      first [by apply elem_of_nil in Hin | by apply broadcastRoom_elem].
  - injection H as H. unfold onConfigSetRounds in H.
    guards H;
      first [by apply elem_of_nil in Hin | by apply broadcastRoom_elem].
  - unfold onGameStart in H.
    repeat case_bool_decide; simpl in H;
      try (injection H as <- <-; by apply elem_of_nil in Hin).
    + injection H as <- <-. apply elem_of_cons in Hin as [[=]|Hin].
      by apply elem_of_nil in Hin.
    + apply bind_Some in H as (r2 & _ & H). by eapply startRound_out.
  - injection H as H. unfold onRoundClue in H.
    guards H;
      first [by apply elem_of_nil in Hin | by apply broadcastRoom_elem].
  - injection H as H. unfold onRoundGuess in H.
    guards H;
      first [by apply elem_of_nil in Hin | by apply broadcastRoom_elem].
  - injection H as H. unfold onRoundLock, revealRound in H.
    guards H;
      first [by apply elem_of_nil in Hin | by apply broadcastRoom_elem].
  - injection H as H. unfold onRoundRevealNow, revealRound in H.
    guards H;
      first [by apply elem_of_nil in Hin | by apply broadcastRoom_elem].
  - unfold onRoundNext, endGame in H.
    repeat case_bool_decide; simpl in H;
      try (injection H as <- <-;
           first [by apply elem_of_nil in Hin | by apply broadcastRoom_elem]).
    by eapply startRound_out.
  - unfold onGameReplay in H.
    repeat case_bool_decide; simpl in H;
      try (injection H as <- <-; by apply elem_of_nil in Hin).
    apply bind_Some in H as (r2 & _ & H). by eapply startRound_out.
Qed.

(** The same for a step of the registry: the room is in the registry the
    step leaves. *)
Lemma handle_out_state sid ev d rooms rooms' out pid pl :
  handle sid ev d rooms = Some (rooms', out) → (pid, RoomState pl) ∈ out →
  ∃ c r, rooms' !! c = Some r ∧ pl = safeRoomState r pid
         ∧ pid ∈ id <$> players r.
Proof.
  intros H Hin.
  assert (Hw : ∀ c0 body,
    withRoom c0 rooms body = Some (rooms', out) →
    (∀ r r', body r = Some (r', out) → roomBody sid ev d r = Some (r', out)) →
    ∃ c r, rooms' !! c = Some r ∧ pl = safeRoomState r pid
           ∧ pid ∈ id <$> players r).
  { intros c0 body Hb Hrb.
    apply withRoom_inv in Hb as [(_ & _ & ->)|(r & r1 & Hr & Hb & ->)].
    - by apply elem_of_nil in Hin.
    - exists c0, r1. split; [apply lookup_insert_eq|].
      eapply roomBody_out; eauto. }
  destruct ev; unfold handle in H.
  - injection H as <- <-. apply elem_of_cons in Hin as [[=]|Hin].
    exists newCode, (newRoom sid newCode name0).
    split; [apply lookup_insert_eq|]. by apply broadcastRoom_elem.
  - destruct (rooms !! code0) as [r|] eqn:E.
    + destruct (onRoomJoin sid code0 name0 r) as [r1 o] eqn:J.
      injection H as <- <-. exists code0, r1.
      split; [apply lookup_insert_eq|].
      apply (roomBody_out sid (RoomJoin code0 name0) d r r1 o); [|done].
      simpl. by rewrite J.
    + injection H as <- <-. apply elem_of_cons in Hin as [[=]|Hin].
      by apply elem_of_nil in Hin.
  - eapply Hw; [exact H|]. by intros r r' [= <-].
  - eapply Hw; [exact H|]. by intros r r' [= <-].
  - eapply Hw; [exact H|]. done.
  - eapply Hw; [exact H|]. by intros r r' [= <-].
  - eapply Hw; [exact H|]. by intros r r' [= <-].
  - eapply Hw; [exact H|]. by intros r r' [= <-].
  - eapply Hw; [exact H|]. by intros r r' [= <-].
  - eapply Hw; [exact H|]. done.
  - eapply Hw; [exact H|]. done.
  - injection H as <- <-.
    apply list_elem_of_join in Hin as (l & Hin & Hl).
    apply list_elem_of_fmap in Hl as ([c r] & -> & Hcr).
    apply elem_of_map_to_list in Hcr. simpl in Hin.
    unfold leaveEmits in Hin.
    destruct (leaveRoom sid r) as [r1 was] eqn:EL.
    destruct was; simpl in Hin; [|by apply elem_of_nil in Hin].
    case_bool_decide as Hlen; simpl in Hin; [by apply elem_of_nil in Hin|].
    exists c, r1. split; [|by apply broadcastRoom_elem].
    rewrite lookup_omap, Hcr. simpl. unfold afterLeave. rewrite EL. simpl.
    by rewrite bool_decide_false.
Qed.

Lemma snapshotInv_fields r r' :
  snapshotInv r →
  phase r' = phase r → lastReveal r' = lastReveal r → target r' = target r →
  snapshotInv r'.
Proof. unfold snapshotInv. intros H -> -> ->. done. Qed.

Lemma startRound_snapshotInv room d r out :
  startRound room d = Some (r, out) → snapshotInv r.
Proof.
  intros H. apply startRound_fields in H as (Hp & _ & _ & _ & HL & Ht & _).
  unfold snapshotInv. rewrite Hp. done.
Qed.

Lemma roomBody_snapshotInv sid ev d r r' out :
  snapshotInv r → roomBody sid ev d r = Some (r', out) → snapshotInv r'.
Proof.
  intros Hinv H. destruct ev; simpl in H; try discriminate.
  - injection H as <- <-. unfold onRoomJoin.
    destruct (list_find _ _); done.
  - injection H as H. unfold onPromptsSet in H.
    guards H; done.
  - injection H as H. unfold onConfigSetRounds in H.
    guards H; done.
  - unfold onGameStart in H.
    guards_then H done.
    apply bind_Some in H as (r2 & _ & H). by eapply startRound_snapshotInv.
  - injection H as H. unfold onRoundClue in H.
    case_bool_decide as Hc; simpl in H; [|injection H as <- <-; done].
    case_bool_decide as Hg; simpl in H; injection H as <- <-; [|done].
    unfold snapshotInv in *. simpl. by rewrite Hc in Hinv.
  - injection H as H. unfold onRoundGuess in H.
    guards H; done.
  - injection H as H. unfold onRoundLock in H.
    case_bool_decide as Hg; simpl in H; [|injection H as <- <-; done].
    case_bool_decide as Hc; simpl in H; [injection H as <- <-; done|].
    case_bool_decide as Hall; simpl in H; injection H as <- <-; [|done].
    unfold snapshotInv in *. simpl. rewrite Hg in Hinv.
    destruct Hinv as [_ [t Ht]]. eauto.
  - injection H as H. unfold onRoundRevealNow in H.
    case_bool_decide as Hh; simpl in H; [|injection H as <- <-; done].
    case_bool_decide as Hg; simpl in H; injection H as <- <-; [|done].
    unfold snapshotInv in *. simpl. rewrite Hg in Hinv.
    destruct Hinv as [_ [t Ht]]. eauto.
  - unfold onRoundNext in H.
    guards_then H done.
    by eapply startRound_snapshotInv.
  - unfold onGameReplay in H.
    guards_then H done.
    apply bind_Some in H as (r2 & _ & H). by eapply startRound_snapshotInv.
Qed.

Lemma reachable_snapshotInv rooms c r :
  reachable rooms → rooms !! c = Some r → snapshotInv r.
Proof.
  intros Hreach. revert c r.
  apply (reachable_room_ind snapshotInv); [| | |exact Hreach].
  - intros sid c nm. by unfold snapshotInv.
  - intros sid r r' Hinv HL.
    apply afterLeave_fields in HL as (Hp & Hl & _ & _ & Ht & _).
    by apply (snapshotInv_fields r).
  - intros sid ev d r r' out. apply roomBody_snapshotInv.
Qed.


(** C8, as amended.  Every [room:state] the server emits from a reachable
    registry is the safe state of a room [r] of the registry, sent to one of
    its players [pid], and: it has the [secretTarget] field exactly when
    [pid] is the clue-giver and the phase is [CLUE], and the field then
    holds the target; during [GUESS] it has neither that field nor a reveal
    snapshot; during [REVEAL] its reveal snapshot holds the target; during
    [GAMEOVER] the snapshot has been cleared and the payload holds no
    target. *)
Theorem target_visibility sid ev d rooms rooms' out pid pl :
  reachable rooms →
  handle sid ev d rooms = Some (rooms', out) →
  (pid, RoomState pl) ∈ out →
  ∃ c r,
    rooms' !! c = Some r ∧ pid ∈ id <$> players r
    ∧ pl = safeRoomState r pid
    ∧ (is_Some (State.secretTarget pl) ↔
       cluegiverId r = Some pid ∧ phase r = CLUE)
    ∧ (cluegiverId r = Some pid → phase r = CLUE →
       ∃ t, target r = Some t ∧ State.secretTarget pl = Some (Some t))
    ∧ (phase r = GUESS →
       State.secretTarget pl = None ∧ State.lastReveal pl = None)
    ∧ (phase r = REVEAL →
       ∃ rv t, State.lastReveal pl = Some rv ∧ Reveal.target rv = Some t
               ∧ target r = Some t)
    ∧ (phase r = GAMEOVER →
       State.secretTarget pl = None ∧ State.lastReveal pl = None).
Proof.
  intros Hreach Hstep Hin.
  destruct (handle_out_state _ _ _ _ _ _ _ _ Hstep Hin)
    as (c & r & Hr & -> & Hpid).
  assert (Hinv : snapshotInv r).
  { eapply reachable_snapshotInv; [|exact Hr]. by eapply reachable_step. }
  exists c, r. split; [done|]. split; [done|]. split; [done|].
  unfold snapshotInv in Hinv. simpl.
  split; [|split; [|split; [|split]]].
  - case_bool_decide as Hc; case_bool_decide as Hp; simpl; split;
      intros Hx; try (by destruct Hx); try by eauto.
  - intros Hc Hp. rewrite Hp in Hinv. destruct Hinv as [_ [t Ht]].
    exists t. split; [done|].
    rewrite !bool_decide_true by done. simpl. by rewrite Ht.
  - intros Hp. rewrite Hp in Hinv. destruct Hinv as [HL _].
    split; [|done]. rewrite (bool_decide_false (phase r = CLUE)) by congruence.
    by rewrite andb_false_r.
  - intros Hp. by rewrite Hp in Hinv.
  - intros Hp. rewrite Hp in Hinv. destruct Hinv as [HL _].
    split; [|done]. rewrite (bool_decide_false (phase r = CLUE)) by congruence.
    by rewrite andb_false_r.
Qed.

Lemma target_visibility_witness :
  reachable (Demo.after Demo.oneLocked)
  ∧ ∃ c r,
      handle_rooms "c" (RoundLock "R") Demo.draws (Demo.after Demo.oneLocked)
        !! c = Some r
      ∧ phase r = REVEAL
      ∧ safeRoomState r "b" = safeRoomState (Demo.room Demo.revealed) "b".
Proof.
  split; [apply after_reachable|].
  assert (H2 : handle "c" (RoundLock "R") Demo.draws (Demo.after Demo.oneLocked)
               = Some (handle_rooms "c" (RoundLock "R") Demo.draws
                         (Demo.after Demo.oneLocked),
                       handle_out "c" (RoundLock "R") Demo.draws
                         (Demo.after Demo.oneLocked)))
    by by_evaluation.
  assert (H3 : ("b", RoomState (safeRoomState (Demo.room Demo.revealed) "b"))
               ∈ handle_out "c" (RoundLock "R") Demo.draws
                   (Demo.after Demo.oneLocked)).
  { apply list_elem_of_lookup. exists 1%nat. by_evaluation. }
  destruct (target_visibility _ _ _ _ _ _ _ _
              (after_reachable Demo.oneLocked) H2 H3)
    as (c & r & Hr & _ & Hpl & _ & _ & _ & Hrev & _).
  exists c, r. split; [exact Hr|]. split; [|by rewrite Hpl].
  change (State.phase (safeRoomState r "b") = REVEAL).
  rewrite <- Hpl. by_evaluation.
Defined.

(** C8 as stated fails for [GAMEOVER]: when the host ends the one-round game
    after its reveal, the state broadcast to Bob is in [GAMEOVER] and has
    neither a reveal snapshot nor the [secretTarget] field. *)
Lemma gameover_hides_target :
  reachable (Demo.after Demo.single)
  ∧ phase (Demo.room Demo.single) = REVEAL
  ∧ ∃ rooms' out pl,
      handle "a" (RoundNext "R") Demo.draws (Demo.after Demo.single)
        = Some (rooms', out)
      ∧ out !! 1%nat = Some ("b", RoomState pl)
      ∧ State.phase pl = GAMEOVER
      ∧ State.lastReveal pl = None
      ∧ State.secretTarget pl = None.
Proof.
  split; [apply after_reachable|]. split; [by_evaluation|].
  eexists _, _, _. split; [by_evaluation|]. split; [by_evaluation|].
  split; [by_evaluation|]. split; by_evaluation.
Qed.

(** ** The prompt parser *)

Lemma startsWith_length sep s :
  JS.startsWith sep s = true → (length sep ≤ length s)%nat.
Proof.
  revert s. induction sep as [|a sep IH]; intros [|b s]; simpl;
    try done; try lia.
  intros H. apply andb_true_iff in H as [_ H]. apply IH in H. lia.
Qed.

Lemma startsWith_app sep s :
  JS.startsWith sep s = true → s = sep ++ drop (length sep) s.
Proof.
  revert s. induction sep as [|a sep IH]; intros [|b s]; simpl; try done.
  intros H. apply andb_true_iff in H as [Hab H].
  apply N.eqb_eq in Hab as ->. f_equal. by apply IH.
Qed.

(** [cutAt] cuts at an occurrence of [sep], and [sep] occurs at no earlier
    position. *)
Lemma cutAt_first sep s a rest :
  cutAt sep s = Some (a, rest) →
  s = a ++ sep ++ rest
  ∧ ∀ i, (i < length a)%nat → JS.startsWith sep (drop i s) = false.
Proof.
  revert a rest. induction s as [|c s IH]; intros a rest; simpl.
  - destruct (JS.startsWith sep []) eqn:E; [|done].
    intros [= <- <-]. split; [by apply startsWith_app|]. simpl. lia.
  - destruct (JS.startsWith sep (c :: s)) eqn:E.
    + intros [= <- <-]. split; [by apply startsWith_app|]. simpl. lia.
    + destruct (cutAt sep s) as [[a' rest']|] eqn:C; [|done].
      intros [= <- <-]. destruct (IH _ _ eq_refl) as [-> Hi].
      split; [done|]. intros [|i] Hlt; simpl in *; [done|].
      apply Hi. lia.
Qed.

Lemma includes_cutAt sep s :
  JS.includes sep s = true ↔ is_Some (cutAt sep s).
Proof.
  induction s as [|c s IH]; simpl.
  - rewrite orb_false_r. destruct (JS.startsWith sep []); split;
      intros H; try done; by destruct H.
  - destruct (JS.startsWith sep (c :: s)); simpl; [by eauto|].
    rewrite IH. destruct (cutAt sep s) as [[a rest]|]; split;
      intros [x H]; try done; eauto.
Qed.

Lemma split_go_skip sep k cur s :
  (k ≤ length s)%nat →
  JS.split_go sep k cur s = JS.split_go sep 0 cur (drop k s).
Proof.
  revert k. induction s as [|c s IH]; intros [|k] Hk; simpl in *;
    try done; try lia.
  apply IH. lia.
Qed.

(** [split] cuts at the first occurrence and goes on with the rest. *)
Lemma split_go_cutAt sep cur s :
  sep ≠ [] →
  JS.split_go sep 0 cur s =
  match cutAt sep s with
  | None => [reverse cur ++ s]
  | Some (a, rest) => (reverse cur ++ a) :: JS.split_go sep 0 [] rest
  end.
Proof.
  intros Hsep. revert cur. induction s as [|c s IH]; intros cur.
  - destruct sep; [done|]. simpl. by rewrite app_nil_r.
  - cbn [JS.split_go cutAt].
    destruct (JS.startsWith sep (c :: s)) eqn:E.
    + rewrite app_nil_r. f_equal.
      pose proof (startsWith_length _ _ E) as Hl.
      destruct sep as [|x sep]; [done|]. simpl in *.
      rewrite Nat.sub_0_r. apply split_go_skip. lia.
    + rewrite IH. destruct (cutAt sep s) as [[a rest]|].
      * by rewrite reverse_cons, <- app_assoc.
      * by rewrite reverse_cons, <- app_assoc.
Qed.

Lemma splitPair_cutAt sep line a rest :
  sep ≠ [] → cutAt sep line = Some (a, rest) →
  splitPair sep line =
  (Some (JS.trim a), Some (JS.trim (untilNext sep rest))).
Proof.
  intros Hsep Hc. unfold splitPair, JS.split.
  rewrite split_go_cutAt, Hc by done. simpl.
  rewrite split_go_cutAt by done. unfold untilNext.
  destruct (cutAt sep rest) as [[b rest']|]; reflexivity.
Qed.

Lemma parseLine_amended line : parseLine line = amendedParseLine line.
Proof.
  assert (Hcase : ∀ sep, sep ≠ [] → JS.includes sep line = true →
    (let '(l, r) := splitPair sep line in
     match l, r with
     | Some a, Some b =>
         if truthyStr a && truthyStr b
            && bool_decide (length a ≤ 50)%nat
            && bool_decide (length b ≤ 50)%nat
         then Some {| left := a; right := b |}
         else None
     | _, _ => None
     end) =
    ('(a, rest) ← cutAt sep line;
     keepPair (JS.trim a) (JS.trim (untilNext sep rest)))).
  { intros sep Hsep Hinc. apply includes_cutAt in Hinc as [[a rest] Hc].
    rewrite (splitPair_cutAt _ _ _ _ Hsep Hc), Hc. reflexivity. }
  unfold parseLine, amendedParseLine, chosenSep, delimiters. cbn [List.find].
  destruct (JS.includes sepBar line) eqn:E1; [by apply Hcase|].
  destruct (JS.includes sepComma line) eqn:E2; [by apply Hcase|].
  destruct (JS.includes sepArrow line) eqn:E3; [by apply Hcase|].
  destruct (JS.includes sepDash line) eqn:E4; [by apply Hcase|].
  reflexivity.
Qed.

Lemma keepPair_Some a b p :
  keepPair a b = Some p →
  left p = a ∧ right p = b ∧ a ≠ [] ∧ b ≠ []
  ∧ (length a ≤ 50)%nat ∧ (length b ≤ 50)%nat.
Proof.
  unfold keepPair. destruct a, b; simpl; try done.
  repeat case_bool_decide; simpl; try done. intros [= <-]. simpl. done.
Qed.

(** C9, as amended.  The parser yields, for the trimmed non-blank lines in
    order, the pair of each line that has one, cut off after 250 pairs.  The
    delimiter of a line is the first of [|], [,], [->], [—] it contains; the
    left side is what precedes the first occurrence of that delimiter and
    the right side what lies between its first and its second occurrence
    (up to the end of the line when there is no second), both trimmed; the
    pair is kept when both sides are non-empty and of at most 50 code units,
    and a line without delimiter or with such a side yields nothing.  When
    the delimiter occurs once in the line, the right side is all that
    follows it.  The text [Cold | Hot], [Bad,Good], [foo] on three lines
    gives the two pairs (Cold, Hot) and (Bad, Good). *)
Theorem parsePromptLines_spec text :
  parsePromptLines text = take 250 (omap amendedParseLine (promptLines text))
  ∧ (length (parsePromptLines text) ≤ 250)%nat
  ∧ (∀ p, p ∈ parsePromptLines text →
       left p ≠ [] ∧ right p ≠ []
       ∧ (length (left p) ≤ 50)%nat ∧ (length (right p) ≤ 50)%nat)
  ∧ (∀ line sep a rest,
       chosenSep line = Some sep → cutAt sep line = Some (a, rest) →
       JS.includes sep rest = false →
       parseLine line = specParseLine line)
  ∧ parsePromptLines (JS.ofAscii "Cold | Hot
Bad,Good
foo") = [ {| left := JS.ofAscii "Cold"; right := JS.ofAscii "Hot" |};
          {| left := JS.ofAscii "Bad"; right := JS.ofAscii "Good" |} ].
Proof.
  assert (Heq : parsePromptLines text =
                take 250 (omap amendedParseLine (promptLines text))).
  { unfold parsePromptLines. f_equal.
    apply list_omap_ext, Forall2_same_length_lookup. split; [done|].
    intros i x y Hx Hy. assert (x = y) as -> by congruence.
    apply parseLine_amended. }
  split; [exact Heq|]. split; [|split; [|split]].
  - unfold parsePromptLines. rewrite length_take. lia.
  - intros p Hp. rewrite Heq in Hp.
    apply elem_of_take in Hp as (i & Hp & _).
    apply list_elem_of_lookup_2 in Hp.
    apply list_elem_of_omap in Hp as (line & _ & Hl).
    unfold amendedParseLine in Hl.
    apply bind_Some in Hl as (sep & _ & Hl).
    apply bind_Some in Hl as ([a rest] & _ & Hl).
    apply keepPair_Some in Hl as (-> & -> & ? & ? & ? & ?). done.
  - intros line sep a rest Hsep Hc Hinc.
    rewrite parseLine_amended. unfold amendedParseLine, specParseLine.
    rewrite Hsep. simpl. rewrite Hc. simpl. unfold untilNext.
    destruct (cutAt sep rest) as [[b rest']|] eqn:E; [|done].
    assert (JS.includes sep rest = true) by (apply includes_cutAt; eauto).
    congruence.
  - by_evaluation.
Qed.

(** C9 as stated fails on a line in which the delimiter occurs twice: for
    [a|b|c] the parser gives the pair (a, b), while splitting the line at
    the first occurrence of the delimiter gives (a, b|c). *)
Lemma second_delimiter_cuts_right_side :
  parsePromptLines (JS.ofAscii "a|b|c")
  = [ {| left := JS.ofAscii "a"; right := JS.ofAscii "b" |} ]
  ∧ specParsePromptLines (JS.ofAscii "a|b|c")
    = [ {| left := JS.ofAscii "a"; right := JS.ofAscii "b|c" |} ]
  ∧ parsePromptLines (JS.ofAscii "a|b|c")
    ≠ specParsePromptLines (JS.ofAscii "a|b|c").
Proof.
  split; [by_evaluation|]. split; by_evaluation.
Qed.
